(** * Consumable items of the roguelike: healing potion, confusion scroll,
      fireball scroll and lightning scroll ([components/consumable.py]).

    The Python objects live in a heap of actors, items and inventories that
    are addressed by object identity; an activation mutates that heap and
    either returns or raises.  A mutation that happened before a [raise]
    is still there afterwards, so a computation returns the heap together
    with its outcome. *)

From Stdlib Require Import ZArith List Bool String Lia Arith Permutation.
Import ListNotations.
Open Scope Z_scope.

(** ** Object stores *)

Module Heap.

(** A store maps an object identity to the object's current fields. *)
Definition store (A : Type) : Type := nat -> A.

Definition upd {A : Type} (s : store A) (k : nat) (v : A) : store A :=
  fun j => if Nat.eqb j k then v else s j.

End Heap.

(** ** Numbers compared by the scrolls

    [Entity.distance] returns a float and [LightningDamageConsumable]
    starts its search from [self.maximum_range + 1.0].  The only floats that
    are compared are therefore integers and square roots of integers; they
    are kept symbolically so that the comparisons are exact. *)

Inductive real : Type :=
  | of_int (z : Z)        (* float(z) *)
  | sqrt_of (n : Z).      (* math.sqrt(n), for 0 <= n *)

Definition real_ltb (a b : real) : bool :=
  match a, b with
  | of_int p, of_int q => p <? q
  | sqrt_of n, of_int q => (0 <? q) && (n <? q * q)
  | of_int p, sqrt_of m => (p <? 0) || (p * p <? m)
  | sqrt_of n, sqrt_of m => n <? m
  end.

Definition real_leb (a b : real) : bool := negb (real_ltb b a).

(** The conversion of a Python int to a float, which is a double: the
    nearest number with a significand of 53 bits, ties going to the even
    significand. *)
Definition round53_pos (a : Z) : Z :=
  let e := Z.log2 a in
  if e <? 53 then a
  else
    let s := e - 52 in
    let q := a / 2 ^ s in
    let r := a mod 2 ^ s in
    let h := 2 ^ (s - 1) in
    (if (h <? r) || ((r =? h) && Z.odd q) then q + 1 else q) * 2 ^ s.

Definition round53 (z : Z) : Z := Z.sgn z * round53_pos (Z.abs z).

(** [None] stands for the [OverflowError] that an int too large for a
    double raises. *)
Definition float_of_int (z : Z) : option Z :=
  let f := round53 z in
  if Z.abs f <? 2 ^ 1024 then Some f else None.

(** [f + 1.0] for a float [f] with an integer value: the sum is rounded, and
    it never leaves the range of the doubles. *)
Definition float_add_one (f : Z) : Z := round53 (f + 1).

(** ** Data model *)

(** [components.ai]: the behaviour attached to an actor.  [ConfusedEnemy]
    keeps the behaviour it replaces. *)
#[warnings="-register-all"]
Inductive AI : Type :=
  | BaseAI (cls : string)
  | ConfusedEnemy (previous_ai : option AI) (turns_remaining : Z).

Record Fighter : Type := mkFighter { hp : Z; max_hp : Z }.

Record Actor : Type := mkActor {
  x : Z;
  y : Z;
  name : string;
  fighter : Fighter;
  ai : option AI
}.

(** [Item.parent]: an inventory, or something that is not one (the game map
    for an item lying on the floor, or nothing). *)
Inductive Parent : Type :=
  | InInventory (inventory : nat)
  | OnGameMap
  | NoParent.

Record Item : Type := mkItem { item_name : string; parent : Parent }.

Inductive Color : Type :=
  | needs_target
  | status_effect_applied
  | health_recovered.

(** The f-strings of the source, kept with their arguments. *)
Inductive Text : Type :=
  | plain (s : string)
  | msg_confused (target_name : string)
  | msg_healed (item : string) (amount_recovered : Z)
  | msg_fireball (actor_name : string) (damage : Z)
  | msg_lightning (target_name : string) (damage : Z).

Record Message : Type := mkMessage { text : Text; fg : option Color }.

Record World : Type := mkWorld {
  visible : Z * Z -> bool;             (* game_map.visible[x, y] *)
  actors : list nat;                   (* game_map.actors, in iteration order *)
  actor_at : Heap.store Actor;         (* the Actor objects *)
  items : Heap.store Item;             (* the Item objects *)
  inventory_items : Heap.store (list nat);  (* Inventory.items *)
  message_log : list Message
}.

Definition set_actor (w : World) (i : nat) (a : Actor) : World :=
  mkWorld (visible w) (actors w) (Heap.upd (actor_at w) i a) (items w)
          (inventory_items w) (message_log w).

Definition set_inventory (w : World) (k : nat) (l : list nat) : World :=
  mkWorld (visible w) (actors w) (actor_at w) (items w)
          (Heap.upd (inventory_items w) k l) (message_log w).

Definition log (w : World) (m : Message) : World :=
  mkWorld (visible w) (actors w) (actor_at w) (items w)
          (inventory_items w) (message_log w ++ [m]).

Definition set_fighter (a : Actor) (f : Fighter) : Actor :=
  mkActor (x a) (y a) (name a) f (ai a).

Definition set_ai (a : Actor) (b : option AI) : Actor :=
  mkActor (x a) (y a) (name a) (fighter a) b.

(** ** Exceptions and the effect monad *)

Inductive Exn : Type :=
  | Impossible (message : string)
  | ValueError
  | OverflowError.

Inductive Outcome (A : Type) : Type :=
  | Returned (v : A)
  | Raised (e : Exn).
Arguments Returned {A} v.
Arguments Raised {A} e.

(** A computation takes the heap and gives back the (possibly mutated)
    heap with its outcome. *)
Definition M (A : Type) : Type := World -> World * Outcome A.

Definition ret {A : Type} (v : A) : M A := fun w => (w, Returned v).

Definition raise {A : Type} (e : Exn) : M A := fun w => (w, Raised e).

Definition bind {A B : Type} (m : M A) (k : A -> M B) : M B :=
  fun w =>
    match m w with
    | (w1, Returned v) => k v w1
    | (w1, Raised e) => (w1, Raised e)
    end.

Notation "v <- m ;; k" := (bind m (fun v => k))
  (at level 61, m at next level, right associativity).
Notation "m ;;; k" := (bind m (fun _ => k))
  (at level 61, right associativity).

Definition get_actor (i : nat) : M Actor := fun w => (w, Returned (actor_at w i)).

Definition add_message (t : Text) (c : option Color) : M unit :=
  fun w => (log w (mkMessage t c), Returned tt).

(** ** The engine around the consumables *)

(** Modelled from the spec: [Entity.distance] is not under src/.  It is the
    straight-line distance from the entity to the point, the square root of
    [dx^2 + dy^2]. *)
Definition distance (a : Actor) (xy : Z * Z) : real :=
  sqrt_of ((fst xy - x a) ^ 2 + (snd xy - y a) ^ 2).

(** Modelled from the spec: [Fighter.take_damage] is not under src/.  The
    fighter takes exactly [amount] damage. *)
Definition take_damage (amount : Z) (f : Fighter) : Fighter :=
  mkFighter (hp f - amount) (max_hp f).

(** Modelled from the spec: [Fighter.heal] is not under src/.  Below maximum
    HP the fighter is healed by up to [amount], capped at maximum HP; at
    maximum HP nothing is healed.  The result is the number of HP recovered.
    The spec is silent on an amount that is not positive and on HP above the
    maximum: nothing is healed there, and the properties of the potion say
    where they rely on [heal]. *)
Definition heal (amount : Z) (f : Fighter) : Fighter * Z :=
  if (max_hp f <=? hp f) || (amount <=? 0) then (f, 0)
  else
    let new_hp_value := Z.min (hp f + amount) (max_hp f) in
    (mkFighter new_hp_value (max_hp f), new_hp_value - hp f).

(** Modelled from the spec: [ItemAction.target_actor] is not under src/.
    It is the actor standing at the target location, if there is one. *)
Definition target_actor (w : World) (target_xy : Z * Z) : option nat :=
  find (fun i => (x (actor_at w i) =? fst target_xy)
                 && (y (actor_at w i) =? snd target_xy)) (actors w).

Definition fighter_take_damage (i : nat) (amount : Z) : M unit :=
  fun w =>
    let a := actor_at w i in
    (set_actor w i (set_fighter a (take_damage amount (fighter a))), Returned tt).

Definition fighter_heal (i : nat) (amount : Z) : M Z :=
  fun w =>
    let a := actor_at w i in
    let '(f, amount_recovered) := heal amount (fighter a) in
    (set_actor w i (set_fighter a f), Returned amount_recovered).

(** [actions.ItemAction]: who uses which item, and the selected location. *)
Record ItemAction : Type := mkItemAction {
  entity : nat;
  item : nat;
  target_xy : Z * Z
}.

(** What [get_action] returns: an action without a selected location, or an
    input handler that builds the action once the player has selected one. *)
Inductive ActionOrHandler : Type :=
  | Action (entity item : nat)
  | SingleRangedAttackHandler (callback : Z * Z -> ItemAction)
  | AreaRangedAttackHandler (radius : Z) (callback : Z * Z -> ItemAction).

(** ** components/consumable.py *)

(** [list.remove]: drops the first occurrence. *)
Fixpoint remove_first (e : nat) (l : list nat) : list nat :=
  match l with
  | [] => []
  | h :: t => if Nat.eqb h e then t else h :: remove_first e t
  end.

Definition list_remove (k : nat) (e : nat) : M unit :=
  fun w =>
    let l := inventory_items w k in
    if existsb (Nat.eqb e) l
    then (set_inventory w k (remove_first e l), Returned tt)
    else (w, Raised ValueError).

Inductive Variant : Type :=
  | ConfusionConsumable (number_of_turns : Z)
  | HealingConsumable (amount : Z)
  | FireballDamageConsumable (damage : Z) (radius : Z)
  | LightningDamageConsumable (damage : Z) (maximum_range : Z).

(** A consumable component: [self.parent] is the item it belongs to. *)
Record Consumable : Type := mkConsumable {
  self_parent : nat;
  variant : Variant
}.

(** [get_action] of [Consumable], [ConfusionConsumable] and
    [FireballDamageConsumable]. *)
Definition get_action (self : Consumable) (consumer : nat) : M ActionOrHandler :=
  match variant self with
  | ConfusionConsumable _ =>
      add_message (plain "Selectionnez la cible a viser.") (Some needs_target) ;;;
      ret (SingleRangedAttackHandler
             (fun xy => mkItemAction consumer (self_parent self) xy))
  | FireballDamageConsumable _ radius =>
      add_message (plain "Selectionnez une cible.") (Some needs_target) ;;;
      ret (AreaRangedAttackHandler radius
             (fun xy => mkItemAction consumer (self_parent self) xy))
  | HealingConsumable _ | LightningDamageConsumable _ _ =>
      ret (Action consumer (self_parent self))
  end.

(** [Consumable.consume] *)
Definition consume (self : Consumable) : M unit :=
  fun w =>
    let entity := self_parent self in
    match parent (items w entity) with
    | InInventory inventory => list_remove inventory entity w
    | OnGameMap | NoParent => (w, Returned tt)
    end.

(** [ConfusionConsumable.activate] *)
Definition confusion_activate (self : Consumable) (number_of_turns : Z)
    (action : ItemAction) : M unit :=
  fun w =>
    let consumer := entity action in
    let target := target_actor w (target_xy action) in
    if negb (visible w (target_xy action)) then
      raise (Impossible "Vous ne pouvez pas cibler un endroit hors du champ de vision.") w
    else
      match target with
      | None => raise (Impossible "Vous devez selectionner un ennemi.") w
      | Some target =>
          if Nat.eqb target consumer then
            raise (Impossible "Vous ne pouvez pas vous rendre vous-meme confus!") w
          else
            (t <- get_actor target ;;
             add_message (msg_confused (name t)) (Some status_effect_applied) ;;;
             (fun w1 =>
                (set_actor w1 target
                   (set_ai (actor_at w1 target)
                      (Some (ConfusedEnemy (ai (actor_at w1 target)) number_of_turns))),
                 Returned tt)) ;;;
             consume self) w
      end.

(** [HealingConsumable.activate] *)
Definition healing_activate (self : Consumable) (amount : Z)
    (action : ItemAction) : M unit :=
  let consumer := entity action in
  amount_recovered <- fighter_heal consumer amount ;;
  if 0 <? amount_recovered then
    (fun w =>
       add_message (msg_healed (item_name (items w (self_parent self))) amount_recovered)
                   (Some health_recovered) w) ;;;
    consume self
  else
    raise (Impossible "Votre sante est deja au maximum.").

(** [FireballDamageConsumable.activate] *)
Definition fireball_body (damage radius : Z) (target_xy : Z * Z) (actor : nat)
    : M bool :=
  a <- get_actor actor ;;
  if real_leb (distance a target_xy) (of_int radius) then
    add_message (msg_fireball (name a) damage) None ;;;
    fighter_take_damage actor damage ;;;
    ret true
  else ret false.

Fixpoint fireball_loop (damage radius : Z) (target_xy : Z * Z) (l : list nat)
    (targets_hit : bool) : M bool :=
  match l with
  | [] => ret targets_hit
  | actor :: l' =>
      hit <- fireball_body damage radius target_xy actor ;;
      fireball_loop damage radius target_xy l' (hit || targets_hit)
  end.

Definition fireball_activate (self : Consumable) (damage radius : Z)
    (action : ItemAction) : M unit :=
  fun w =>
    let target_xy := target_xy action in
    if negb (visible w target_xy) then
      raise (Impossible "Vous ne pouvez pas viser hors de votre champ de vision.") w
    else
      (targets_hit <- fireball_loop damage radius target_xy (actors w) false ;;
       if negb targets_hit then
         raise (Impossible "There are no targets in the radius.")
       else consume self) w.

(** [LightningDamageConsumable.activate]: the search loop keeps the pair
    [(target, closest_distance)].  The item's [gamemap] is the map the engine
    plays on, so both give the same [visible] grid.  The search starts from
    [self.maximum_range + 1.0], a float: the int is converted, which raises
    [OverflowError] when it is too large, and the sum is rounded. *)
Fixpoint lightning_loop (w : World) (consumer : nat) (l : list nat)
    (target : option nat) (closest_distance : real) : option nat * real :=
  match l with
  | [] => (target, closest_distance)
  | actor :: l' =>
      let a := actor_at w actor in
      if negb (Nat.eqb actor consumer) && visible w (x a, y a) then
        let distance := distance (actor_at w consumer) (x a, y a) in
        if real_ltb distance closest_distance
        then lightning_loop w consumer l' (Some actor) distance
        else lightning_loop w consumer l' target closest_distance
      else lightning_loop w consumer l' target closest_distance
  end.

Definition lightning_activate (self : Consumable) (damage maximum_range : Z)
    (action : ItemAction) : M unit :=
  fun w =>
    let consumer := entity action in
    match float_of_int maximum_range with
    | None => raise OverflowError w
    | Some f =>
        let '(target, _) :=
          lightning_loop w consumer (actors w) None (of_int (float_add_one f)) in
        match target with
        | Some target =>
            (t <- get_actor target ;;
             add_message (msg_lightning (name t) damage) None ;;;
             fighter_take_damage target damage ;;;
             consume self) w
        | None => raise (Impossible "Pas d'ennemi proche a cibler.") w
        end
    end.

(** [activate], dispatched on the class of the consumable. *)
Definition activate (self : Consumable) (action : ItemAction) : M unit :=
  match variant self with
  | ConfusionConsumable number_of_turns => confusion_activate self number_of_turns action
  | HealingConsumable amount => healing_activate self amount action
  | FireballDamageConsumable damage radius => fireball_activate self damage radius action
  | LightningDamageConsumable damage maximum_range =>
      lightning_activate self damage maximum_range action
  end.

(** ** Vocabulary of the properties *)

(** The inventories as [consume] leaves them. *)
Definition inventories_after_consume (self : Consumable) (w : World)
    : Heap.store (list nat) :=
  match parent (items w (self_parent self)) with
  | InInventory k =>
      Heap.upd (inventory_items w) k
        (remove_first (self_parent self) (inventory_items w k))
  | OnGameMap | NoParent => inventory_items w
  end.

(** The actor's distance to the location is within the radius. *)
Definition within_radius (w : World) (i : nat) (xy : Z * Z) (radius : Z) : bool :=
  real_leb (distance (actor_at w i) xy) (of_int radius).

(** The actor after one [take_damage damage]. *)
Definition damaged (damage : Z) (a : Actor) : Actor :=
  set_fighter a (take_damage damage (fighter a)).

(** The call raised [Impossible]. *)
Definition raises_Impossible {A : Type} (r : World * Outcome A) : Prop :=
  exists message, snd r = Raised (Impossible message).

(** An item belongs to at most one inventory. *)
Definition at_most_one_inventory (w : World) : Prop :=
  forall e k1 k2,
    In e (inventory_items w k1) -> In e (inventory_items w k2) -> k1 = k2.

(** From [w] to [w'] nothing happened to the inventories except, possibly,
    the removal of the item of [self] from the inventory that is its parent. *)
Definition only_removes (self : Consumable) (w w' : World) : Prop :=
  forall k,
    inventory_items w' k = inventory_items w k
    \/ (parent (items w (self_parent self)) = InInventory k
        /\ inventory_items w' k
           = remove_first (self_parent self) (inventory_items w k)).

(** No actor of the game map stands at the location. *)
Definition no_actor_at (w : World) (xy : Z * Z) : Prop :=
  forall i, In i (actors w) ->
            ~ (x (actor_at w i) = fst xy /\ y (actor_at w i) = snd xy).

(** The actor under a confusion that lasts [number_of_turns] turns. *)
Definition confused (number_of_turns : Z) (a : Actor) : Actor :=
  set_ai a (Some (ConfusedEnemy (ai a) number_of_turns)).


(** A call that raises [Impossible] has no effect: every actor's HP and AI
    and every inventory's contents are as before the call. *)
Definition rejected_without_effect (self : Consumable) (action : ItemAction)
    (w : World) : Prop :=
  raises_Impossible (activate self action w) ->
  (forall i,
     hp (fighter (actor_at (fst (activate self action w)) i))
     = hp (fighter (actor_at w i))
     /\ ai (actor_at (fst (activate self action w)) i) = ai (actor_at w i))
  /\ (forall k,
       inventory_items (fst (activate self action w)) k = inventory_items w k).

(** Where the spec says what [heal] does: the healing amount is positive and
    the consumer's HP does not exceed its maximum.  Nothing is asked of the
    other variants. *)
Definition healing_well_formed (self : Consumable) (action : ItemAction)
    (w : World) : Prop :=
  forall amount,
    variant self = HealingConsumable amount ->
    0 < amount
    /\ hp (fighter (actor_at w (entity action)))
       <= max_hp (fighter (actor_at w (entity action))).

(** What the lightning loop looks at: an actor other than the consumer that
    stands on a visible tile, and its distance to the consumer. *)
Definition candidate (w : World) (consumer i : nat) : bool :=
  negb (Nat.eqb i consumer) && visible w (x (actor_at w i), y (actor_at w i)).

Definition distance_to (w : World) (consumer i : nat) : real :=
  distance (actor_at w consumer) (x (actor_at w i), y (actor_at w i)).

(** The actor is within the maximum range of the consumer. *)
Definition within_range (w : World) (consumer : nat) (maximum_range : Z) (i : nat)
    : bool :=
  real_leb (distance_to w consumer i) (of_int maximum_range).

(** Where the search of the lightning starts: the float
    [maximum_range + 1.0], when the conversion of [maximum_range] succeeds. *)
Definition lightning_start (maximum_range : Z) : option real :=
  match float_of_int maximum_range with
  | Some f => Some (of_int (float_add_one f))
  | None => None
  end.

(** The actor can be struck: it is a candidate and its distance to the
    consumer is below the float [maximum_range + 1.0], where the search
    starts. *)
Definition in_reach (w : World) (consumer : nat) (maximum_range : Z) (i : nat)
    : bool :=
  candidate w consumer i
  && match lightning_start maximum_range with
     | Some start => real_ltb (distance_to w consumer i) start
     | None => false
     end.

(** The item is used up by an activation that returns: it was in the
    inventory that is its parent before the call and is not after. *)
Definition used_up (self : Consumable) (action : ItemAction) (w : World)
    (k : nat) : Prop :=
  parent (items w (self_parent self)) = InInventory k ->
  In (self_parent self) (inventory_items w k) ->
  snd (activate self action w) = Returned tt ->
  ~ In (self_parent self) (inventory_items (fst (activate self action w)) k).

(** The heap in which inventory [k] lists item [e] twice. *)
Definition listed_twice (w : World) (k e : nat) : World :=
  set_inventory w k [e; e].

(** The heap after the lightning has struck [target]. *)
Definition struck (w : World) (damage : Z) (target : nat) : World :=
  set_actor (log w (mkMessage (msg_lightning (name (actor_at w target)) damage) None))
            target (damaged damage (actor_at w target)).

(** Every inventory lists an item at most once. *)
Definition inventories_nodup (w : World) : Prop :=
  forall k, NoDup (inventory_items w k).

(** An item that an inventory lists has that inventory as its parent. *)
Definition listed_items_point_back (w : World) : Prop :=
  forall e k, In e (inventory_items w k) -> parent (items w e) = InInventory k.

(** The same heap with [game_map.actors] yielding the actors as [l]. *)
Definition reorder (w : World) (l : list nat) : World :=
  mkWorld (visible w) l (actor_at w) (items w) (inventory_items w) (message_log w).


(** The actors an activation can change: the consumer of a potion, the
    actor under a visible confusion target that is not the consumer, the
    actors of the game map within the radius of a visible fireball target,
    the actors of the game map in reach of the lightning. *)
Definition may_touch (self : Consumable) (action : ItemAction) (w : World)
    (i : nat) : Prop :=
  match variant self with
  | HealingConsumable _ => i = entity action
  | ConfusionConsumable _ =>
      visible w (target_xy action) = true
      /\ target_actor w (target_xy action) = Some i
      /\ i <> entity action
  | FireballDamageConsumable _ radius =>
      visible w (target_xy action) = true
      /\ In i (actors w)
      /\ within_radius w i (target_xy action) radius = true
  | LightningDamageConsumable _ maximum_range =>
      In i (actors w) /\ in_reach w (entity action) maximum_range i = true
  end.

(** ** Sample heap used by the closed examples *)

Module Sample.

Definition hostile : option AI := Some (BaseAI "HostileEnemy").

Definition player : Actor := mkActor 0 0 "Joueur" (mkFighter 5 10) hostile.
Definition orc : Actor := mkActor 4 4 "Orc" (mkFighter 10 10) hostile.
Definition troll : Actor := mkActor 9 9 "Troll" (mkFighter 16 16) hostile.

(** Actor 0 is the player, who carries item 0 in inventory 0; item 1 lies
    on the floor. *)
Definition world : World :=
  mkWorld
    (fun _ => true)
    [0%nat; 1%nat; 2%nat]
    (fun i => match i with 0%nat => player | 1%nat => orc | _ => troll end)
    (fun e => match e with
              | 0%nat => mkItem "Parchemin" (InInventory 0)
              | _ => mkItem "Potion" OnGameMap
              end)
    (fun k => match k with 0%nat => [0%nat] | _ => [] end)
    [].

Definition scroll (v : Variant) : Consumable := mkConsumable 0 v.
Definition on_floor (v : Variant) : Consumable := mkConsumable 1 v.

Definition at_orc : ItemAction := mkItemAction 0 0 (4, 4).
Definition at_self : ItemAction := mkItemAction 0 0 (0, 0).
Definition orc_drinks : ItemAction := mkItemAction 1 0 (4, 4).

End Sample.

(** * Properties *)

(** ** Stores *)

Lemma upd_same {A : Type} (s : Heap.store A) k v : Heap.upd s k v k = v.
Proof. unfold Heap.upd. now rewrite Nat.eqb_refl. Qed.

Lemma upd_other {A : Type} (s : Heap.store A) k v j :
  j <> k -> Heap.upd s k v j = s j.
Proof.
  intros Hjk. unfold Heap.upd.
  destruct (Nat.eqb_spec j k) as [E | _]; [contradiction | reflexivity].
Qed.

(** ** Lists *)

Lemma existsb_eqb_In (e : nat) (l : list nat) :
  existsb (Nat.eqb e) l = true <-> In e l.
Proof.
  rewrite existsb_exists. split.
  - intros [k [Hk E]]. apply Nat.eqb_eq in E. now subst.
  - intros H. exists e. split; [assumption | apply Nat.eqb_refl].
Qed.

Lemma In_remove_first (e a : nat) (l : list nat) :
  In a (remove_first e l) -> In a l.
Proof.
  induction l as [| h t IH]; simpl; [tauto |].
  destruct (Nat.eqb h e); simpl; intuition.
Qed.

Lemma remove_first_absent (e : nat) (l : list nat) :
  ~ In e l -> remove_first e l = l.
Proof.
  induction l as [| h t IH]; simpl; intros Hn; [reflexivity |].
  destruct (Nat.eqb_spec h e) as [E | _].
  - exfalso. apply Hn. now left.
  - f_equal. apply IH. intros Hin. apply Hn. now right.
Qed.

Lemma NoDup_remove_first (e : nat) (l : list nat) :
  NoDup l -> ~ In e (remove_first e l).
Proof.
  induction 1 as [| h t Hh Ht IH]; simpl; [tauto |].
  destruct (Nat.eqb_spec h e) as [E | N].
  - now subst.
  - simpl. intros [E | Hin]; [contradiction | now apply IH].
Qed.

(** ** What [consume] touches *)

Lemma consume_inventories (self : Consumable) (w : World) (k : nat) :
  inventory_items (fst (consume self w)) k = inventories_after_consume self w k.
Proof.
  unfold consume, inventories_after_consume, list_remove.
  destruct (parent (items w (self_parent self))) as [k0 | |]; try reflexivity.
  destruct (existsb (Nat.eqb (self_parent self)) (inventory_items w k0)) eqn:E.
  - reflexivity.
  - simpl. unfold Heap.upd. destruct (Nat.eqb_spec k k0) as [-> | _]; [| reflexivity].
    symmetry. apply remove_first_absent. intros Hin.
    apply existsb_eqb_In in Hin. congruence.
Qed.

Lemma consume_frame (self : Consumable) (w : World) :
  visible (fst (consume self w)) = visible w
  /\ actors (fst (consume self w)) = actors w
  /\ actor_at (fst (consume self w)) = actor_at w
  /\ items (fst (consume self w)) = items w
  /\ message_log (fst (consume self w)) = message_log w.
Proof.
  unfold consume, list_remove.
  destruct (parent (items w (self_parent self))) as [k0 | |]; simpl; auto.
  destruct (existsb _ _); simpl; auto.
Qed.

Lemma consume_outcome (self : Consumable) (w : World) :
  snd (consume self w) = Returned tt \/ snd (consume self w) = Raised ValueError.
Proof.
  unfold consume, list_remove.
  destruct (parent (items w (self_parent self))) as [k0 | |]; simpl; auto.
  destruct (existsb _ _); simpl; auto.
Qed.

Lemma consume_returns (self : Consumable) (w : World) (k : nat) :
  parent (items w (self_parent self)) = InInventory k ->
  In (self_parent self) (inventory_items w k) ->
  snd (consume self w) = Returned tt.
Proof.
  intros Hp Hin. unfold consume, list_remove. rewrite Hp.
  apply existsb_eqb_In in Hin. now rewrite Hin.
Qed.

(** ** The fireball loop *)

Lemma fireball_body_eq (d r : Z) (xy : Z * Z) (i : nat) (w : World) :
  fireball_body d r xy i w =
  if within_radius w i xy r
  then (set_actor (log w (mkMessage (msg_fireball (name (actor_at w i)) d) None))
                  i (damaged d (actor_at w i)),
        Returned true)
  else (w, Returned false).
Proof.
  unfold fireball_body, within_radius, bind, get_actor. simpl.
  destruct (real_leb _ _); reflexivity.
Qed.

(** [take_damage] leaves the actor where it stands. *)
Lemma within_radius_after_hit (w : World) (m : Message) (a : nat) (d : Z)
    (xy : Z * Z) (r : Z) (i : nat) :
  within_radius (set_actor (log w m) a (damaged d (actor_at w a))) i xy r
  = within_radius w i xy r.
Proof.
  unfold within_radius, set_actor, log. simpl. unfold Heap.upd.
  destruct (Nat.eqb_spec i a) as [-> | _]; reflexivity.
Qed.

Lemma fireball_loop_spec (d r : Z) (xy : Z * Z) (l : list nat) :
  forall (hit : bool) (w : World),
  exists w',
    fireball_loop d r xy l hit w
    = (w', Returned (hit || existsb (fun i => within_radius w i xy r) l))
    /\ items w' = items w
    /\ inventory_items w' = inventory_items w
    /\ (forall i, ~ (In i l /\ within_radius w i xy r = true) ->
                  actor_at w' i = actor_at w i)
    /\ (NoDup l -> forall i, In i l -> within_radius w i xy r = true ->
                  actor_at w' i = damaged d (actor_at w i))
    /\ (existsb (fun i => within_radius w i xy r) l = false -> w' = w).
Proof.
  induction l as [| a l IH]; intros hit w.
  - exists w. simpl. unfold ret. rewrite orb_false_r.
    repeat split; auto. intros _ i [].
  - cbn [fireball_loop]. unfold bind at 1. rewrite fireball_body_eq.
    destruct (within_radius w a xy r) eqn:Ea.
    + set (w1 := set_actor _ a _).
      destruct (IH (true || hit) w1) as (w' & Hrun & Hit & Hinv & Hout & Hin & _).
      exists w'. rewrite Hrun.
      assert (Hsame : forall i, within_radius w1 i xy r = within_radius w i xy r)
        by (intro i; apply within_radius_after_hit).
      repeat split.
      * f_equal. f_equal. cbn [existsb]. rewrite Ea. simpl.
        now rewrite orb_true_r.
      * exact Hit.
      * exact Hinv.
      * intros i Hn. rewrite Hout.
        -- subst w1. simpl. apply upd_other. intros ->. apply Hn.
           split; [now left | exact Ea].
        -- intros [Hil Hw]. apply Hn. split; [now right |].
           now rewrite <- Hsame.
      * intros Hnd i [-> | Hil] Hw.
        -- inversion Hnd as [| ? ? Hnotin Hnd']; subst.
           rewrite Hout by (intros [Hil _]; contradiction).
           subst w1. simpl. apply upd_same.
        -- inversion Hnd as [| ? ? Hnotin Hnd']; subst.
           rewrite (Hin Hnd' i Hil) by now rewrite Hsame.
           subst w1. simpl. rewrite upd_other; [reflexivity |].
           intros ->. contradiction.
      * cbn [existsb]. rewrite Ea. discriminate.
    + destruct (IH (false || hit) w) as (w' & Hrun & Hit & Hinv & Hout & Hin & Hnone).
      exists w'. rewrite Hrun. repeat split.
      * cbn [existsb]. rewrite Ea. reflexivity.
      * exact Hit.
      * exact Hinv.
      * intros i Hn. apply Hout. intros [Hil Hw]. apply Hn. split; [now right | exact Hw].
      * intros Hnd i [-> | Hil] Hw; [congruence |].
        inversion Hnd; subst. now apply Hin.
      * cbn [existsb]. rewrite Ea. exact Hnone.
Qed.

(** ** Every activation ends in a rejection, in [consume] or in an overflow *)

(** Up to its last step an activation leaves items and inventories alone;
    the last step is a [raise Impossible], the call of [consume], or, for a
    lightning whose maximum range does not fit a float, the [OverflowError]
    of the first line. *)
Lemma activate_shape (self : Consumable) (action : ItemAction) (w : World) :
  exists w1,
    items w1 = items w
    /\ inventory_items w1 = inventory_items w
    /\ ((exists message, activate self action w = (w1, Raised (Impossible message)))
        \/ activate self action w = consume self w1
        \/ (activate self action w = (w, Raised OverflowError)
            /\ w1 = w
            /\ exists d m, variant self = LightningDamageConsumable d m
                           /\ float_of_int m = None)).
Proof.
  unfold activate. destruct (variant self) as [n | amount | d r | d m].
  - unfold confusion_activate.
    destruct (visible w (target_xy action)); simpl.
    + destruct (target_actor w (target_xy action)) as [t |].
      * destruct (Nat.eqb t (entity action)).
        -- exists w. repeat split. left. eexists. reflexivity.
        -- eexists. split; [| split; [| right; left; reflexivity]]; reflexivity.
      * exists w. repeat split. left. eexists. reflexivity.
    + exists w. repeat split. left. eexists. reflexivity.
  - unfold healing_activate, bind, fighter_heal.
    destruct (heal amount (fighter (actor_at w (entity action)))) as [f rec].
    destruct (0 <? rec).
    + eexists. split; [| split; [| right; left; reflexivity]]; reflexivity.
    + eexists. split; [| split; [| left; eexists; reflexivity]]; reflexivity.
  - unfold fireball_activate.
    destruct (visible w (target_xy action)); simpl.
    + unfold bind.
      destruct (fireball_loop_spec d r (target_xy action) (actors w) false w)
        as (w' & Hrun & Hit & Hinv & _).
      rewrite Hrun. exists w'. split; [exact Hit | split; [exact Hinv |]].
      destruct (existsb _ _); simpl.
      * right. left. reflexivity.
      * left. eexists. reflexivity.
    + exists w. repeat split. left. eexists. reflexivity.
  - unfold lightning_activate.
    destruct (float_of_int m) as [f |] eqn:Hf.
    + destruct (lightning_loop w (entity action) (actors w) None
                  (of_int (float_add_one f))) as [[t |] c].
      * eexists. split; [| split; [| right; left; reflexivity]]; reflexivity.
      * exists w. repeat split. left. eexists. reflexivity.
    + exists w. repeat split. right. right. repeat split.
      exists d, m. now split.
Qed.

Lemma consume_only_removes (self : Consumable) (w : World) :
  only_removes self w (fst (consume self w)).
Proof.
  intros k. rewrite consume_inventories. unfold inventories_after_consume.
  destruct (parent (items w (self_parent self))) as [k0 | |]; auto.
  destruct (Nat.eq_dec k k0) as [-> | N].
  - right. split; [reflexivity | apply upd_same].
  - left. now apply upd_other.
Qed.

Lemma only_removes_transport (self : Consumable) (w w1 w' : World) :
  items w1 = items w -> inventory_items w1 = inventory_items w ->
  only_removes self w1 w' -> only_removes self w w'.
Proof.
  intros Hi Hv H k. specialize (H k). now rewrite Hi, Hv in H.
Qed.

Lemma activate_only_removes (self : Consumable) (action : ItemAction) (w : World) :
  only_removes self w (fst (activate self action w)).
Proof.
  destruct (activate_shape self action w)
    as (w1 & Hi & Hv & [[msg E] | [E | (E & _)]]); rewrite E.
  - intros k. left. simpl. now rewrite Hv.
  - apply (only_removes_transport self w w1); auto. apply consume_only_removes.
  - intros k. now left.
Qed.

Lemma only_removes_subset (self : Consumable) (w w' : World) :
  only_removes self w w' ->
  forall k e, In e (inventory_items w' k) -> In e (inventory_items w k).
Proof.
  intros H k e Hin. destruct (H k) as [E | [_ E]]; rewrite E in Hin.
  - exact Hin.
  - now apply In_remove_first in Hin.
Qed.

Lemma only_removes_invariant (self : Consumable) (w w' : World) :
  only_removes self w w' -> at_most_one_inventory w -> at_most_one_inventory w'.
Proof.
  intros H Hw e k1 k2 H1 H2.
  apply (Hw e); eapply only_removes_subset; eauto.
Qed.

(** ** The claims about [consume] *)

(** C10: when the item's parent is not an inventory (it lies on the map, or
    has no parent), [consume] returns without raising and leaves the whole
    heap as it was; an inventory that [consume] changed is the item's
    parent. *)
Theorem consume_noop_outside_inventory (self : Consumable) (w : World) :
  ((forall k, parent (items w (self_parent self)) <> InInventory k) ->
   consume self w = (w, Returned tt))
  /\ (forall k,
        inventory_items (fst (consume self w)) k <> inventory_items w k ->
        parent (items w (self_parent self)) = InInventory k).
Proof.
  split.
  - intros Hp. unfold consume.
    destruct (parent (items w (self_parent self))) as [k | |]; try reflexivity.
    now destruct (Hp k).
  - intros k Hk. destruct (consume_only_removes self w k) as [E | [Hp _]];
      [contradiction | exact Hp].
Qed.

Lemma consume_noop_outside_inventory_witness :
  consume (Sample.on_floor (HealingConsumable 4)) Sample.world
  = (Sample.world, Returned tt).
Proof.
  apply (proj1 (consume_noop_outside_inventory
                  (Sample.on_floor (HealingConsumable 4)) Sample.world)).
  intros k. simpl. discriminate.
Defined.

(** C9: [get_action], [consume] and every [activate] keep the invariant that
    an item belongs to at most one inventory.  [get_action] leaves the
    inventories alone; all the others ever do to them is to remove the item
    from the inventory that is its parent: nothing is inserted anywhere. *)
Theorem consumables_keep_single_inventory
    (self : Consumable) (consumer : nat) (action : ItemAction) (w : World) :
  at_most_one_inventory w ->
  (inventory_items (fst (get_action self consumer w)) = inventory_items w
   /\ at_most_one_inventory (fst (get_action self consumer w)))
  /\
  (only_removes self w (fst (consume self w))
   /\ (forall k e, In e (inventory_items (fst (consume self w)) k) ->
                   In e (inventory_items w k))
   /\ at_most_one_inventory (fst (consume self w)))
  /\
  (only_removes self w (fst (activate self action w))
   /\ (forall k e, In e (inventory_items (fst (activate self action w)) k) ->
                   In e (inventory_items w k))
   /\ at_most_one_inventory (fst (activate self action w))).
Proof.
  intros Hw. split; [| split].
  - assert (E : inventory_items (fst (get_action self consumer w)) = inventory_items w)
      by (unfold get_action; destruct (variant self); reflexivity).
    split; [exact E |]. unfold at_most_one_inventory. rewrite E. exact Hw.
  - pose proof (consume_only_removes self w) as H.
    split; [exact H | split].
    + now apply (only_removes_subset self).
    + now apply (only_removes_invariant self w).
  - pose proof (activate_only_removes self action w) as H.
    split; [exact H | split].
    + now apply (only_removes_subset self).
    + now apply (only_removes_invariant self w).
Qed.

Lemma sample_world_single_inventory : at_most_one_inventory Sample.world.
Proof.
  intros e k1 k2 H1 H2.
  destruct k1 as [| k1]; [| now destruct H1].
  destruct k2 as [| k2]; [reflexivity | now destruct H2].
Defined.

Lemma consumables_keep_single_inventory_witness :
  at_most_one_inventory
    (fst (activate (Sample.scroll (LightningDamageConsumable 20 5))
                   Sample.at_self Sample.world)).
Proof.
  exact (proj2 (proj2 (proj2 (proj2
           (consumables_keep_single_inventory
              (Sample.scroll (LightningDamageConsumable 20 5)) 0%nat
              Sample.at_self Sample.world sample_world_single_inventory))))).
Defined.

Lemma count_occ_remove_first (e : nat) (l : list nat) :
  In e l ->
  count_occ Nat.eq_dec (remove_first e l) e
  = Nat.pred (count_occ Nat.eq_dec l e).
Proof.
  induction l as [| h t IH]; simpl; [tauto |].
  intros Hin. destruct (Nat.eqb_spec h e) as [E | N].
  - destruct (Nat.eq_dec h e) as [_ | N]; [reflexivity | contradiction].
  - simpl. destruct (Nat.eq_dec h e) as [E | _]; [contradiction |].
    apply IH. destruct Hin as [E | Hin]; [contradiction | exact Hin].
Qed.

Lemma listed_once_removed (e : nat) (l : list nat) :
  count_occ Nat.eq_dec l e = 1%nat -> ~ In e (remove_first e l).
Proof.
  intros Hone.
  assert (Hin : In e l) by (apply (count_occ_In Nat.eq_dec); lia).
  apply (count_occ_not_In Nat.eq_dec).
  rewrite (count_occ_remove_first e l Hin), Hone. reflexivity.
Qed.

(** C6, as the code has it: a consumable whose item is listed exactly once
    by the inventory that is its parent is used up by an activation that
    returns: the item was in that inventory before the call and is not in it
    after. *)
Theorem consumable_is_single_use
    (self : Consumable) (action : ItemAction) (w : World) (k : nat) :
  count_occ Nat.eq_dec (inventory_items w k) (self_parent self) = 1%nat ->
  used_up self action w k.
Proof.
  intros Hone Hp _ Hret.
  destruct (activate_shape self action w)
    as (w1 & Hi & Hv & [[msg E] | [E | (E & _)]]).
  - rewrite E in Hret. discriminate.
  - rewrite E, consume_inventories. unfold inventories_after_consume.
    rewrite Hi, Hv, Hp, upd_same. now apply listed_once_removed.
  - rewrite E in Hret. discriminate.
Qed.

Lemma consumable_is_single_use_witness :
  ~ In 0%nat
      (inventory_items
         (fst (activate (Sample.scroll (HealingConsumable 4))
                        Sample.at_self Sample.world)) 0%nat).
Proof.
  refine (consumable_is_single_use
            (Sample.scroll (HealingConsumable 4))
            Sample.at_self Sample.world 0%nat _ _ _ _).
  - reflexivity.
  - reflexivity.
  - simpl. now left.
  - reflexivity.
Defined.

(** C6, as the spec states it, fails when the inventory lists the item
    twice: [list.remove] takes out the first occurrence only, so after the
    potion has been drunk, and the call has returned, the inventory still
    lists it. *)
Lemma twice_listed_item_is_not_used_up :
  ~ used_up (Sample.scroll (HealingConsumable 4)) Sample.at_self
            (listed_twice Sample.world 0 0) 0.
Proof.
  intros H. apply H.
  - reflexivity.
  - simpl. now left.
  - reflexivity.
  - vm_compute. now left.
Qed.

(** ** FireballDamageConsumable *)

Lemma fireball_activate_eq (item : nat) (d r : Z) (action : ItemAction) (w : World) :
  visible w (target_xy action) = true ->
  exists w',
    fireball_loop d r (target_xy action) (actors w) false w
    = (w', Returned (existsb (fun i => within_radius w i (target_xy action) r)
                             (actors w)))
    /\ activate (mkConsumable item (FireballDamageConsumable d r)) action w
       = (if existsb (fun i => within_radius w i (target_xy action) r) (actors w)
          then consume (mkConsumable item (FireballDamageConsumable d r)) w'
          else (w', Raised (Impossible "There are no targets in the radius."))).
Proof.
  intros Hv.
  destruct (fireball_loop_spec d r (target_xy action) (actors w) false w)
    as (w' & Hrun & _).
  simpl in Hrun. exists w'. split; [exact Hrun |].
  unfold activate. simpl. unfold fireball_activate. rewrite Hv. simpl.
  unfold bind. rewrite Hrun.
  destruct (existsb _ _); reflexivity.
Qed.



(** C8: the fireball raises [Impossible] exactly when the target location
    is not visible or no actor of the game map lies within the radius of the
    target location; when it is raised for lack of targets nothing has been
    damaged: the heap is as before the call. *)
Theorem fireball_rejected_iff_unseen_or_no_target
    (item : nat) (damage radius : Z) (action : ItemAction) (w : World) :
  let self := mkConsumable item (FireballDamageConsumable damage radius) in
  (raises_Impossible (activate self action w)
   <-> visible w (target_xy action) = false
       \/ (forall i, In i (actors w) ->
                     within_radius w i (target_xy action) radius = false))
  /\ (visible w (target_xy action) = true ->
      (forall i, In i (actors w) ->
                 within_radius w i (target_xy action) radius = false) ->
      activate self action w
      = (w, Raised (Impossible "There are no targets in the radius."))).
Proof.
  intros self.
  assert (Hnone : (forall i, In i (actors w) ->
                     within_radius w i (target_xy action) radius = false)
                  <-> existsb (fun i => within_radius w i (target_xy action) radius)
                              (actors w) = false).
  { split.
    - intros H. destruct (existsb _ _) eqn:E; [| reflexivity].
      apply existsb_exists in E. destruct E as (i & Hi & Hw).
      rewrite (H i Hi) in Hw. discriminate.
    - intros E i Hi. destruct (within_radius w i _ _) eqn:Hw; [| reflexivity].
      rewrite <- E. symmetry. apply existsb_exists. now exists i. }
  destruct (visible w (target_xy action)) eqn:Hv.
  - destruct (fireball_loop_spec damage radius (target_xy action) (actors w) false w)
      as (w1 & Hrun & _ & _ & _ & _ & Hsame).
    destruct (fireball_activate_eq item damage radius action w Hv)
      as (w2 & Hrun2 & Hact).
    simpl in Hrun. rewrite Hrun in Hrun2. injection Hrun2 as <-.
    fold self in Hact. split.
    + split.
      * intros [message Hr]. right. apply Hnone.
        destruct (existsb _ _) eqn:E; [| reflexivity].
        rewrite Hact in Hr.
        destruct (consume_outcome self w1) as [O | O]; rewrite O in Hr; discriminate.
      * intros [Hf | Hn]; [discriminate |].
        apply Hnone in Hn. rewrite Hact, Hn. eexists. reflexivity.
    + intros _ Hn. apply Hnone in Hn. rewrite Hact, Hn.
      now rewrite (Hsame Hn).
  - split.
    + split; [now left |]. intros _.
      unfold activate, self. simpl. unfold fireball_activate. rewrite Hv.
      eexists. reflexivity.
    + discriminate.
Qed.

(** ** ConfusionConsumable *)

Lemma target_actor_None (w : World) (xy : Z * Z) :
  target_actor w xy = None <-> no_actor_at w xy.
Proof.
  unfold target_actor, no_actor_at. split.
  - intros H i Hi [Hx Hy].
    pose proof (find_none _ _ H i Hi) as Hf. simpl in Hf.
    rewrite Hx, Hy, !Z.eqb_refl in Hf. discriminate.
  - intros H. destruct (find _ (actors w)) as [t |] eqn:E; [| reflexivity].
    apply find_some in E. destruct E as [Hi Hb].
    apply andb_true_iff in Hb. destruct Hb as [Hx Hy].
    apply Z.eqb_eq in Hx, Hy. exfalso. now apply (H t Hi).
Qed.

Lemma confusion_activate_eq (item : nat) (n : Z) (action : ItemAction) (w : World) (t : nat) :
  visible w (target_xy action) = true ->
  target_actor w (target_xy action) = Some t ->
  t <> entity action ->
  activate (mkConsumable item (ConfusionConsumable n)) action w
  = consume (mkConsumable item (ConfusionConsumable n))
      (set_actor
         (log w (mkMessage (msg_confused (name (actor_at w t)))
                           (Some status_effect_applied)))
         t (confused n (actor_at w t))).
Proof.
  intros Hv Ht Hne. unfold activate. simpl. unfold confusion_activate.
  rewrite Hv, Ht. simpl.
  destruct (Nat.eqb_spec t (entity action)) as [E | _]; [contradiction |].
  reflexivity.
Qed.

(** C4: the confusion scroll raises [Impossible] exactly when the target
    location is not visible, or no actor stands at the target location, or
    the actor standing there is the consumer; in every other case no
    [Impossible] is raised and the target is confused: its AI is a
    [ConfusedEnemy] for [number_of_turns] turns over the AI it had, and its
    position, name and fighter are as before. *)
Theorem confusion_rejected_iff_invalid_target
    (item : nat) (number_of_turns : Z) (action : ItemAction) (w : World) :
  let self := mkConsumable item (ConfusionConsumable number_of_turns) in
  (raises_Impossible (activate self action w)
   <-> visible w (target_xy action) = false
       \/ no_actor_at w (target_xy action)
       \/ target_actor w (target_xy action) = Some (entity action))
  /\ (forall t,
        visible w (target_xy action) = true ->
        target_actor w (target_xy action) = Some t ->
        t <> entity action ->
        ~ raises_Impossible (activate self action w)
        /\ ai (actor_at (fst (activate self action w)) t)
           = Some (ConfusedEnemy (ai (actor_at w t)) number_of_turns)
        /\ fighter (actor_at (fst (activate self action w)) t)
           = fighter (actor_at w t)
        /\ (x (actor_at (fst (activate self action w)) t),
            y (actor_at (fst (activate self action w)) t),
            name (actor_at (fst (activate self action w)) t))
           = (x (actor_at w t), y (actor_at w t), name (actor_at w t))).
Proof.
  intros self.
  assert (Hok : forall t,
             visible w (target_xy action) = true ->
             target_actor w (target_xy action) = Some t ->
             t <> entity action ->
             ~ raises_Impossible (activate self action w)
             /\ actor_at (fst (activate self action w)) t
                = confused number_of_turns (actor_at w t)).
  { intros t Hv Ht Hne. unfold self.
    rewrite (confusion_activate_eq item number_of_turns action w t Hv Ht Hne).
    split.
    - intros [message Hr].
      match type of Hr with snd (consume ?s ?w1) = _ =>
        destruct (consume_outcome s w1) as [O | O]; rewrite O in Hr; discriminate
      end.
    - match goal with |- actor_at (fst (consume ?s ?w1)) _ = _ =>
        destruct (consume_frame s w1) as (_ & _ & Ha & _)
      end.
      rewrite Ha. simpl. apply upd_same. }
  split.
  2:{ intros t Hv Ht Hne. destruct (Hok t Hv Ht Hne) as [Hno Ha].
      split; [exact Hno |]. rewrite Ha. repeat split. }
  split.
  - intros Hr.
    destruct (visible w (target_xy action)) eqn:Hv; [| now left].
    right.
    destruct (target_actor w (target_xy action)) as [t |] eqn:Ht.
    + right. destruct (Nat.eq_dec t (entity action)) as [-> | Hne]; [reflexivity |].
      exfalso. now apply (proj1 (Hok t eq_refl eq_refl Hne)).
    + left. now apply target_actor_None.
  - unfold self, activate. simpl. unfold confusion_activate.
    intros [Hv | [Hn | Hs]].
    + rewrite Hv. simpl. eexists. reflexivity.
    + apply target_actor_None in Hn. rewrite Hn.
      destruct (visible w (target_xy action)); simpl; eexists; reflexivity.
    + rewrite Hs, Nat.eqb_refl.
      destruct (visible w (target_xy action)); simpl; eexists; reflexivity.
Qed.

(** C7: when the confusion scroll is activated without being rejected, the
    AI of the actor at the target location becomes a [ConfusedEnemy] whose
    [previous_ai] is the AI the target had before the activation and whose
    [turns_remaining] is the scroll's [number_of_turns]; the target is
    otherwise unchanged, and so is every other actor. *)
Theorem confusion_keeps_previous_ai
    (item : nat) (number_of_turns : Z) (action : ItemAction) (w : World) :
  let self := mkConsumable item (ConfusionConsumable number_of_turns) in
  ~ raises_Impossible (activate self action w) ->
  exists t,
    target_actor w (target_xy action) = Some t
    /\ ai (actor_at (fst (activate self action w)) t)
       = Some (ConfusedEnemy (ai (actor_at w t)) number_of_turns)
    /\ actor_at (fst (activate self action w)) t
       = set_ai (actor_at w t) (ai (actor_at (fst (activate self action w)) t))
    /\ (forall i, i <> t ->
          actor_at (fst (activate self action w)) i = actor_at w i).
Proof.
  intros self Hok.
  destruct (visible w (target_xy action)) eqn:Hv.
  2:{ exfalso. apply Hok. unfold self, activate. simpl. unfold confusion_activate.
      rewrite Hv. simpl. eexists. reflexivity. }
  destruct (target_actor w (target_xy action)) as [t |] eqn:Ht.
  2:{ exfalso. apply Hok. unfold self, activate. simpl. unfold confusion_activate.
      rewrite Hv, Ht. simpl. eexists. reflexivity. }
  destruct (Nat.eq_dec t (entity action)) as [E | Hne].
  { exfalso. apply Hok. unfold self, activate. simpl. unfold confusion_activate.
    rewrite Hv, Ht, E, Nat.eqb_refl. simpl. eexists. reflexivity. }
  exists t. split; [reflexivity |].
  unfold self. rewrite (confusion_activate_eq item number_of_turns action w t Hv Ht Hne).
  match goal with |- context [consume ?s ?w1] =>
    destruct (consume_frame s w1) as (_ & _ & Ha & _)
  end.
  rewrite Ha. simpl. rewrite upd_same. repeat split.
  intros i Hi. now apply upd_other.
Qed.

Lemma confusion_keeps_previous_ai_witness :
  exists t,
    target_actor Sample.world (4, 4) = Some t
    /\ ai (actor_at
             (fst (activate (Sample.scroll (ConfusionConsumable 10))
                            Sample.at_orc Sample.world)) t)
       = Some (ConfusedEnemy Sample.hostile 10).
Proof.
  destruct (confusion_keeps_previous_ai 0%nat 10 Sample.at_orc Sample.world)
    as (t & Ht & Hai & _).
  - intros [message H]. vm_compute in H. discriminate.
  - exists t. split; [exact Ht |].
    unfold Sample.scroll. rewrite Hai. f_equal. f_equal.
    vm_compute in Ht. injection Ht as <-. reflexivity.
Defined.

(** ** HealingConsumable *)

Lemma set_fighter_same (a : Actor) : set_fighter a (fighter a) = a.
Proof. now destruct a. Qed.

Lemma upd_id {A : Type} (s : Heap.store A) (k j : nat) : Heap.upd s k (s k) j = s j.
Proof. unfold Heap.upd. destruct (Nat.eqb_spec j k) as [-> | _]; reflexivity. Qed.

(** The two ways a healing potion ends. *)
Lemma healing_activate_eq (item : nat) (amount : Z) (action : ItemAction) (w : World) :
  let self := mkConsumable item (HealingConsumable amount) in
  let c := entity action in
  let healed := set_actor w c
                  (set_fighter (actor_at w c)
                     (fst (heal amount (fighter (actor_at w c))))) in
  let amount_recovered := snd (heal amount (fighter (actor_at w c))) in
  activate self action w
  = if 0 <? amount_recovered
    then consume self
           (log healed (mkMessage (msg_healed (item_name (items w item)) amount_recovered)
                                  (Some health_recovered)))
    else (healed, Raised (Impossible "Votre sante est deja au maximum.")).
Proof.
  intros self c healed amount_recovered. subst healed amount_recovered.
  unfold activate, self. simpl. unfold healing_activate, bind, fighter_heal. fold c.
  destruct (heal amount (fighter (actor_at w c))) as [f rec]. simpl.
  destruct (0 <? rec); reflexivity.
Qed.




(** ** Rejected activations *)

Lemma consume_never_Impossible {self : Consumable} {w : World} :
  ~ raises_Impossible (consume self w).
Proof.
  intros [message Hr].
  destruct (consume_outcome self w) as [O | O]; rewrite O in Hr; discriminate.
Qed.

Lemma confusion_rejected_unchanged (item : nat) (n : Z) (action : ItemAction) (w : World) :
  raises_Impossible (activate (mkConsumable item (ConfusionConsumable n)) action w) ->
  fst (activate (mkConsumable item (ConfusionConsumable n)) action w) = w.
Proof.
  intros Hr.
  destruct (visible w (target_xy action)) eqn:Hv.
  - destruct (target_actor w (target_xy action)) as [t |] eqn:Ht.
    + destruct (Nat.eq_dec t (entity action)) as [E | Hne].
      * unfold activate. simpl. unfold confusion_activate.
        now rewrite Hv, Ht, E, Nat.eqb_refl.
      * rewrite (confusion_activate_eq item n action w t Hv Ht Hne) in Hr.
        now apply consume_never_Impossible in Hr.
    + unfold activate. simpl. unfold confusion_activate. now rewrite Hv, Ht.
  - unfold activate. simpl. unfold confusion_activate. now rewrite Hv.
Qed.

Lemma fireball_rejected_unchanged (item : nat) (d r : Z) (action : ItemAction) (w : World) :
  raises_Impossible (activate (mkConsumable item (FireballDamageConsumable d r)) action w) ->
  fst (activate (mkConsumable item (FireballDamageConsumable d r)) action w) = w.
Proof.
  intros Hr.
  destruct (visible w (target_xy action)) eqn:Hv.
  - destruct (fireball_loop_spec d r (target_xy action) (actors w) false w)
      as (w1 & Hrun & _ & _ & _ & _ & Hsame).
    destruct (fireball_activate_eq item d r action w Hv) as (w2 & Hrun2 & Hact).
    simpl in Hrun. rewrite Hrun in Hrun2. injection Hrun2 as <-.
    rewrite Hact in Hr |- *.
    destruct (existsb _ _) eqn:E.
    + now apply consume_never_Impossible in Hr.
    + simpl. now apply Hsame.
  - unfold activate. simpl. unfold fireball_activate. now rewrite Hv.
Qed.

Lemma lightning_rejected_unchanged (item : nat) (d m : Z) (action : ItemAction) (w : World) :
  raises_Impossible (activate (mkConsumable item (LightningDamageConsumable d m)) action w) ->
  fst (activate (mkConsumable item (LightningDamageConsumable d m)) action w) = w.
Proof.
  unfold activate. simpl. unfold lightning_activate.
  destruct (float_of_int m) as [f |]; [| reflexivity].
  destruct (lightning_loop w (entity action) (actors w) None
              (of_int (float_add_one f))) as [[t |] c]; [| reflexivity].
  intros Hr. now apply consume_never_Impossible in Hr.
Qed.

Lemma healing_rejected_unchanged (item : nat) (amount : Z) (action : ItemAction) (w : World) :
  0 < amount ->
  hp (fighter (actor_at w (entity action)))
  <= max_hp (fighter (actor_at w (entity action))) ->
  raises_Impossible (activate (mkConsumable item (HealingConsumable amount)) action w) ->
  (forall i, actor_at (fst (activate (mkConsumable item (HealingConsumable amount))
                                     action w)) i
             = actor_at w i)
  /\ inventory_items (fst (activate (mkConsumable item (HealingConsumable amount))
                                   action w))
     = inventory_items w.
Proof.
  intros Hamount Hhp. rewrite (healing_activate_eq item amount action w).
  set (c := entity action) in *. set (f := fighter (actor_at w c)) in *.
  unfold heal. fold f.
  destruct (Z.eq_dec (hp f) (max_hp f)) as [E | N].
  - replace ((max_hp f <=? hp f) || (amount <=? 0)) with true
      by (symmetry; apply orb_true_iff; left; apply Z.leb_le; lia).
    simpl. intros _. split; [| reflexivity].
    intros i. subst f. rewrite set_fighter_same. apply upd_id.
  - replace ((max_hp f <=? hp f) || (amount <=? 0)) with false
      by (symmetry; apply orb_false_iff; split; apply Z.leb_gt; lia).
    simpl.
    destruct (Z.ltb_spec 0 (Z.min (hp f + amount) (max_hp f) - hp f)) as [_ | Hle];
      [| lia].
    intros Hr. now apply consume_never_Impossible in Hr.
Qed.

(** X16: whenever [activate] raises [Impossible], every actor's HP and AI
    and every inventory's contents are as before the call: for the confusion,
    fireball and lightning scrolls on every input, and for the potion where
    the spec says what [Fighter.heal] does, a positive amount and a consumer
    whose HP is not above the maximum. *)
Theorem rejected_activation_has_no_effect
    (self : Consumable) (action : ItemAction) (w : World) :
  healing_well_formed self action w ->
  rejected_without_effect self action w.
Proof.
  intros Hwf Hr. destruct self as [item v].
  destruct v as [n | amount | d r | d m].
  - rewrite (confusion_rejected_unchanged item n action w Hr). now split.
  - destruct (Hwf amount eq_refl) as [Hamount Hhp].
    destruct (healing_rejected_unchanged item amount action w Hamount Hhp Hr)
      as [Ha Hi].
    split.
    + intros i. now rewrite Ha.
    + intros k. now rewrite Hi.
  - rewrite (fireball_rejected_unchanged item d r action w Hr). now split.
  - rewrite (lightning_rejected_unchanged item d m action w Hr). now split.
Qed.

(** The orc, at 10 HP out of 10, is refused a potion of amount 4. *)
Lemma rejected_activation_has_no_effect_witness :
  hp (fighter (actor_at
        (fst (activate (Sample.scroll (HealingConsumable 4)) Sample.orc_drinks
                       Sample.world)) 1%nat))
  = hp (fighter (actor_at Sample.world 1%nat)).
Proof.
  refine (proj1 (proj1 (rejected_activation_has_no_effect
                   (Sample.scroll (HealingConsumable 4)) Sample.orc_drinks
                   Sample.world _ _) 1%nat)).
  - intros amount H. injection H as <-. simpl. lia.
  - eexists. vm_compute. reflexivity.
Defined.

(** ** LightningDamageConsumable *)

Lemma sqrt_lt_trans (a b : Z) (c : real) :
  real_ltb (sqrt_of a) (sqrt_of b) = true ->
  real_ltb (sqrt_of b) c = true ->
  real_ltb (sqrt_of a) c = true.
Proof.
  destruct c as [q | m]; simpl; intros Hab Hbc.
  - apply andb_true_iff in Hbc. destruct Hbc as [Hq Hb]. apply andb_true_iff.
    split; [exact Hq |]. apply Z.ltb_lt in Hab, Hb. apply Z.ltb_lt. lia.
  - apply Z.ltb_lt in Hab, Hbc. apply Z.ltb_lt. lia.
Qed.

Lemma sqrt_lt_asym (a b : Z) :
  real_ltb (sqrt_of a) (sqrt_of b) = true ->
  real_ltb (sqrt_of b) (sqrt_of a) = false.
Proof.
  simpl. intros H. apply Z.ltb_lt in H. apply Z.ltb_ge. lia.
Qed.

Lemma sqrt_not_lt_below (a b : Z) (c : real) :
  real_ltb (sqrt_of a) c = false ->
  real_ltb (sqrt_of b) c = true ->
  real_ltb (sqrt_of a) (sqrt_of b) = false.
Proof.
  intros Hac Hbc.
  destruct (real_ltb (sqrt_of a) (sqrt_of b)) eqn:Hab; [| reflexivity].
  rewrite (sqrt_lt_trans a b c Hab Hbc) in Hac. discriminate.
Qed.

(** The search either keeps what it started with, because no candidate is
    closer than [closest_distance], or ends on the first of the closest
    candidates. *)
Lemma lightning_loop_spec (w : World) (consumer : nat) (l : list nat) :
  forall (target : option nat) (closest_distance : real),
    (lightning_loop w consumer l target closest_distance = (target, closest_distance)
     /\ forall i, In i l -> candidate w consumer i = true ->
                  real_ltb (distance_to w consumer i) closest_distance = false)
    \/ (exists j,
          lightning_loop w consumer l target closest_distance
          = (Some j, distance_to w consumer j)
          /\ In j l
          /\ candidate w consumer j = true
          /\ real_ltb (distance_to w consumer j) closest_distance = true
          /\ forall i, In i l -> candidate w consumer i = true ->
                       real_leb (distance_to w consumer j) (distance_to w consumer i)
                       = true).
Proof.
  unfold real_leb.
  induction l as [| a l IH]; intros target closest.
  - left. split; [reflexivity | intros i []].
  - cbn [lightning_loop].
    change (negb (Nat.eqb a consumer)
            && visible w (x (actor_at w a), y (actor_at w a)))
      with (candidate w consumer a).
    change (distance (actor_at w consumer) (x (actor_at w a), y (actor_at w a)))
      with (distance_to w consumer a).
    destruct (candidate w consumer a) eqn:Hc.
    + destruct (real_ltb (distance_to w consumer a) closest) eqn:Hlt.
      * right.
        destruct (IH (Some a) (distance_to w consumer a))
          as [[Hrun Hall] | (j & Hrun & Hj & Hcj & Hltj & Hall)].
        -- exists a. rewrite Hrun.
           split; [reflexivity |]. split; [now left |]. split; [exact Hc |].
           split; [exact Hlt |].
           intros i [<- | Hi] Hci.
           ++ unfold distance_to, distance. simpl.
              rewrite Z.ltb_irrefl. reflexivity.
           ++ now rewrite (Hall i Hi Hci).
        -- exists j. rewrite Hrun.
           split; [reflexivity |]. split; [now right |]. split; [exact Hcj |].
           split.
           ++ unfold distance_to, distance in *.
              eapply sqrt_lt_trans; eassumption.
           ++ intros i [<- | Hi] Hci.
              ** unfold distance_to, distance in *.
                 now rewrite (sqrt_lt_asym _ _ Hltj).
              ** now apply Hall.
      * destruct (IH target closest)
          as [[Hrun Hall] | (j & Hrun & Hj & Hcj & Hltj & Hall)].
        -- left. split; [exact Hrun |].
           intros i [<- | Hi] Hci; [exact Hlt | now apply Hall].
        -- right. exists j. rewrite Hrun.
           split; [reflexivity |]. split; [now right |]. split; [exact Hcj |].
           split; [exact Hltj |].
           intros i [<- | Hi] Hci; [| now apply Hall].
           unfold distance_to, distance in *.
           now rewrite (sqrt_not_lt_below _ _ closest Hlt Hltj).
    + simpl.
      destruct (IH target closest)
        as [[Hrun Hall] | (j & Hrun & Hj & Hcj & Hltj & Hall)].
      * left. split; [exact Hrun |].
        intros i [<- | Hi] Hci; [congruence | now apply Hall].
      * right. exists j. rewrite Hrun.
        split; [reflexivity |]. split; [now right |]. split; [exact Hcj |].
        split; [exact Hltj |].
        intros i [<- | Hi] Hci; [congruence | now apply Hall].
Qed.

(** *** The float [maximum_range + 1.0] *)

Lemma round53_pos_small (a : Z) : 0 <= a < 2 ^ 53 -> round53_pos a = a.
Proof.
  intros [H0 H53]. unfold round53_pos.
  destruct (Z.eq_dec a 0) as [-> | Hne]; [reflexivity |].
  assert (Hlog : Z.log2 a < 53) by (apply Z.log2_lt_pow2; lia).
  apply Z.ltb_lt in Hlog. now rewrite Hlog.
Qed.

Lemma round53_small (z : Z) : Z.abs z < 2 ^ 53 -> round53 z = z.
Proof.
  intros H. unfold round53. rewrite round53_pos_small by lia.
  destruct z; simpl; lia.
Qed.

Lemma round53_pos_positive (a : Z) : 0 < a -> 0 < round53_pos a.
Proof.
  intros Ha. unfold round53_pos.
  destruct (Z.ltb_spec (Z.log2 a) 53) as [_ | Hlog]; [exact Ha |].
  set (s := Z.log2 a - 52).
  assert (Hs : 0 < 2 ^ s) by (apply Z.pow_pos_nonneg; unfold s; lia).
  assert (Hle : 2 ^ s <= a).
  { transitivity (2 ^ Z.log2 a).
    - apply Z.pow_le_mono_r; unfold s; lia.
    - apply Z.log2_spec. exact Ha. }
  assert (Hq : 0 < a / 2 ^ s) by (apply Z.div_str_pos; lia).
  apply Z.mul_pos_pos; [| exact Hs].
  destruct (_ || _); lia.
Qed.

Lemma round53_nonpositive (z : Z) : z <= 0 -> round53 z <= 0.
Proof.
  intros Hz. unfold round53.
  destruct z as [| p | p]; cbn [Z.sgn Z.abs]; [lia | lia |].
  pose proof (round53_pos_positive (Z.pos p)) as H. lia.
Qed.

Lemma round53_negative (z : Z) : z < 0 -> round53 z < 0.
Proof.
  intros Hz. unfold round53.
  destruct z as [| p | p]; cbn [Z.sgn Z.abs]; [lia | lia |].
  pose proof (round53_pos_positive (Z.pos p)) as H. lia.
Qed.

(** Below 2^53 the float arithmetic of the first line is exact. *)
Lemma lightning_start_exact (m : Z) :
  Z.abs m < 2 ^ 53 -> lightning_start m = Some (of_int (m + 1)).
Proof.
  intros Hm. unfold lightning_start, float_of_int, float_add_one.
  rewrite (round53_small m Hm).
  assert (Hbig : 2 ^ 53 < 2 ^ 1024) by (apply Z.pow_lt_mono_r; lia).
  destruct (Z.ltb_spec (Z.abs m) (2 ^ 1024)) as [_ | Hge]; [| lia].
  destruct (Z.eq_dec (m + 1) (2 ^ 53)) as [E | N].
  - rewrite E. reflexivity.
  - rewrite round53_small by lia. reflexivity.
Qed.

(** A negative maximum range never gives a positive start. *)
Lemma lightning_start_negative (m : Z) (q : Z) :
  m < 0 -> lightning_start m = Some (of_int q) -> q <= 0.
Proof.
  intros Hm. unfold lightning_start, float_of_int, float_add_one.
  destruct (Z.abs (round53 m) <? 2 ^ 1024); [| discriminate].
  intros H. injection H as <-.
  pose proof (round53_negative m Hm) as Hneg.
  apply round53_nonpositive. lia.
Qed.

(** *** The activation *)

(** What the lightning scroll does: when [maximum_range] does not fit a
    float it raises [OverflowError]; with no actor in reach it raises
    [Impossible]; in both cases the heap is untouched.  Otherwise it strikes
    the first of the closest candidates, which is in reach, and consumes the
    item. *)
Lemma lightning_activate_spec (item : nat) (d m : Z) (action : ItemAction) (w : World) :
  let self := mkConsumable item (LightningDamageConsumable d m) in
  let c := entity action in
  (float_of_int m = None /\ activate self action w = (w, Raised OverflowError))
  \/ (float_of_int m <> None
      /\ (forall i, In i (actors w) -> in_reach w c m i = false)
      /\ activate self action w
         = (w, Raised (Impossible "Pas d'ennemi proche a cibler.")))
  \/ (exists t,
        In t (actors w)
        /\ in_reach w c m t = true
        /\ (forall i, In i (actors w) -> candidate w c i = true ->
                      real_leb (distance_to w c t) (distance_to w c i) = true)
        /\ activate self action w = consume self (struck w d t)).
Proof.
  intros self c. unfold activate, self. simpl. unfold lightning_activate. fold c.
  unfold in_reach, lightning_start.
  destruct (float_of_int m) as [f |] eqn:Hf; [| now left].
  right.
  destruct (lightning_loop_spec w c (actors w) None (of_int (float_add_one f)))
    as [[Hrun Hall] | (j & Hrun & Hj & Hcj & Hltj & Hall)]; rewrite Hrun.
  - left. split; [discriminate |]. split; [| reflexivity].
    intros i Hi.
    destruct (candidate w c i) eqn:Hc; [| reflexivity].
    simpl. now apply Hall.
  - right. exists j. split; [exact Hj |]. split.
    + now rewrite Hcj, Hltj.
    + split; [exact Hall | reflexivity].
Qed.




(** C3 at a failing input: the maximum range is 5 and the only other actors
    stand at distances sqrt 32 and sqrt 162 from the player, both beyond the
    maximum range; the spec asks for [Impossible], but the call returns, the
    orc has taken the 20 damage and the scroll has left the inventory. *)
Theorem lightning_strikes_beyond_maximum_range :
  let self := Sample.scroll (LightningDamageConsumable 20 5) in
  let r := activate self Sample.at_self Sample.world in
  (forall i, In i (actors Sample.world) -> i <> entity Sample.at_self ->
             within_range Sample.world (entity Sample.at_self) 5 i = false)
  /\ snd r = Returned tt
  /\ hp (fighter (actor_at (fst r) 1%nat)) = 10 - 20
  /\ inventory_items (fst r) 0%nat = [].
Proof.
  split.
  - simpl. intros i [<- | [<- | [<- | []]]] Hne;
      [contradiction | reflexivity | reflexivity].
  - vm_compute. repeat split.
Qed.

(** * Further properties of the consumables *)

(** ** [consume] and the inventory list *)

Lemma remove_first_split (e : nat) (l1 l2 : list nat) :
  ~ In e l1 -> remove_first e (l1 ++ e :: l2) = l1 ++ l2.
Proof.
  induction l1 as [| h t IH]; simpl; intros Hn.
  - now rewrite Nat.eqb_refl.
  - destruct (Nat.eqb_spec h e) as [E | _].
    + exfalso. apply Hn. now left.
    + f_equal. apply IH. intros Hin. apply Hn. now right.
Qed.

Lemma NoDup_remove_first_keeps (e : nat) (l : list nat) :
  NoDup l -> NoDup (remove_first e l).
Proof.
  induction 1 as [| h t Hh Ht IH]; simpl; [constructor |].
  destruct (Nat.eqb h e); [exact Ht |].
  constructor; [| exact IH].
  intros Hin. apply Hh. now apply In_remove_first in Hin.
Qed.

Lemma activate_items (self : Consumable) (action : ItemAction) (w : World) :
  items (fst (activate self action w)) = items w.
Proof.
  destruct (activate_shape self action w)
    as (w1 & Hi & _ & [[msg E] | [E | (E & _)]]); rewrite E.
  - exact Hi.
  - destruct (consume_frame self w1) as (_ & _ & _ & Hit & _). now rewrite Hit.
  - reflexivity.
Qed.

(** X1: [consume] takes out the first occurrence of the item and nothing
    else.  When the parent inventory lists [l1 ++ item :: l2] with the item
    not in [l1], the call returns, that inventory lists [l1 ++ l2], the other
    inventories are as before, and actors, items and message log are
    untouched. *)
Theorem consume_removes_first_occurrence
    (self : Consumable) (w : World) (k : nat) (l1 l2 : list nat) :
  parent (items w (self_parent self)) = InInventory k ->
  inventory_items w k = l1 ++ self_parent self :: l2 ->
  ~ In (self_parent self) l1 ->
  snd (consume self w) = Returned tt
  /\ inventory_items (fst (consume self w)) k = l1 ++ l2
  /\ (forall k', k' <> k ->
        inventory_items (fst (consume self w)) k' = inventory_items w k')
  /\ actor_at (fst (consume self w)) = actor_at w
  /\ items (fst (consume self w)) = items w
  /\ message_log (fst (consume self w)) = message_log w.
Proof.
  intros Hp Hl Hn.
  destruct (consume_frame self w) as (_ & _ & Ha & Hi & Hm).
  split.
  - apply (consume_returns self w k Hp). rewrite Hl. apply in_or_app.
    right. now left.
  - split.
    + rewrite consume_inventories. unfold inventories_after_consume.
      rewrite Hp, upd_same, Hl. now apply remove_first_split.
    + split; [| now repeat split].
      intros k' Hk'. rewrite consume_inventories.
      unfold inventories_after_consume. rewrite Hp. now apply upd_other.
Qed.

Lemma consume_removes_first_occurrence_witness :
  inventory_items
    (fst (consume (Sample.scroll (HealingConsumable 4)) Sample.world)) 0%nat
  = [] ++ [].
Proof.
  refine (proj1 (proj2 (consume_removes_first_occurrence
                          (Sample.scroll (HealingConsumable 4)) Sample.world
                          0%nat [] [] _ _ _))).
  - reflexivity.
  - reflexivity.
  - simpl. tauto.
Defined.

(** An inventory that does not list the item makes [consume] raise
    [ValueError], and the heap is left as it was. *)
Lemma consume_of_unlisted_item_raises
    (self : Consumable) (w : World) (k : nat) :
  parent (items w (self_parent self)) = InInventory k ->
  ~ In (self_parent self) (inventory_items w k) ->
  consume self w = (w, Raised ValueError).
Proof.
  intros Hp Hn. unfold consume, list_remove. rewrite Hp.
  destruct (existsb (Nat.eqb (self_parent self)) (inventory_items w k)) eqn:E.
  - apply existsb_eqb_In in E. contradiction.
  - reflexivity.
Qed.

(** X2: [consume] does not clear the item's parent, so it cannot be repeated:
    after a [consume] that took the item out of an inventory listing it once,
    a second [consume] raises [ValueError] and changes nothing. *)
Theorem consume_twice_raises (self : Consumable) (w : World) (k : nat) :
  parent (items w (self_parent self)) = InInventory k ->
  NoDup (inventory_items w k) ->
  consume self (fst (consume self w))
  = (fst (consume self w), Raised ValueError).
Proof.
  intros Hp Hnd.
  destruct (consume_frame self w) as (_ & _ & _ & Hi & _).
  unfold consume at 1. unfold list_remove. rewrite Hi, Hp.
  destruct (existsb _ _) eqn:E; [| reflexivity].
  apply existsb_eqb_In in E. rewrite consume_inventories in E.
  unfold inventories_after_consume in E. rewrite Hp, upd_same in E.
  now apply NoDup_remove_first in E.
Qed.

Lemma consume_twice_raises_witness :
  snd (consume (Sample.scroll (HealingConsumable 4))
         (fst (consume (Sample.scroll (HealingConsumable 4)) Sample.world)))
  = Raised ValueError.
Proof.
  rewrite (consume_twice_raises (Sample.scroll (HealingConsumable 4))
             Sample.world 0%nat).
  - reflexivity.
  - reflexivity.
  - repeat constructor. simpl. tauto.
Defined.

(** ** Activations and the inventory *)

Lemma consume_ValueError_iff (self : Consumable) (w : World) :
  snd (consume self w) = Raised ValueError
  <-> exists k, parent (items w (self_parent self)) = InInventory k
                /\ ~ In (self_parent self) (inventory_items w k).
Proof.
  split.
  - unfold consume, list_remove.
    destruct (parent (items w (self_parent self))) as [k | |]; try discriminate.
    destruct (existsb _ _) eqn:E; [discriminate |].
    intros _. exists k. split; [reflexivity |].
    intros Hin. apply existsb_eqb_In in Hin. congruence.
  - intros (k & Hp & Hn). now rewrite (consume_of_unlisted_item_raises self w k Hp Hn).
Qed.




(** Whether the first line of the lightning overflows depends on the scroll
    alone. *)
Lemma lightning_overflows (self : Consumable) (action : ItemAction) (w : World)
    (d m : Z) :
  variant self = LightningDamageConsumable d m ->
  float_of_int m = None ->
  activate self action w = (w, Raised OverflowError).
Proof.
  intros Hv Hf. unfold activate. rewrite Hv. unfold lightning_activate.
  now rewrite Hf.
Qed.

(** X5: a consumable cannot be used twice.  After an activation that
    returned and took the item out of an inventory listing it once, no
    activation of the same consumable returns: it is rejected with
    [Impossible] or it ends in [ValueError]. *)
Theorem activate_twice_never_returns
    (self : Consumable) (first second : ItemAction) (w : World) (k : nat) :
  parent (items w (self_parent self)) = InInventory k ->
  NoDup (inventory_items w k) ->
  snd (activate self first w) = Returned tt ->
  raises_Impossible (activate self second (fst (activate self first w)))
  \/ snd (activate self second (fst (activate self first w))) = Raised ValueError.
Proof.
  intros Hp Hnd Hret.
  set (w' := fst (activate self first w)).
  assert (Hitems : items w' = items w) by apply activate_items.
  assert (Hgone : ~ In (self_parent self) (inventory_items w' k)).
  { subst w'.
    destruct (activate_shape self first w)
      as (w1 & Hi & Hv & [[msg E] | [E | (E & _)]]).
    - rewrite E in Hret. discriminate.
    - rewrite E, consume_inventories. unfold inventories_after_consume.
      rewrite Hi, Hv, Hp, upd_same. now apply NoDup_remove_first.
    - rewrite E in Hret. discriminate. }
  destruct (activate_shape self second w')
    as (w2 & Hi & Hv & [[msg E] | [E | (_ & _ & d & m & Hvar & Hf)]]).
  - left. exists msg. now rewrite E.
  - right. rewrite E. apply consume_ValueError_iff. exists k.
    rewrite Hi, Hv, Hitems. now split.
  - rewrite (lightning_overflows self first w d m Hvar Hf) in Hret.
    discriminate.
Qed.

Lemma activate_twice_never_returns_witness :
  raises_Impossible
    (activate (Sample.scroll (HealingConsumable 4)) Sample.at_self
       (fst (activate (Sample.scroll (HealingConsumable 4)) Sample.at_self
                      Sample.world)))
  \/ snd (activate (Sample.scroll (HealingConsumable 4)) Sample.at_self
            (fst (activate (Sample.scroll (HealingConsumable 4)) Sample.at_self
                           Sample.world)))
     = Raised ValueError.
Proof.
  apply (activate_twice_never_returns
           (Sample.scroll (HealingConsumable 4)) Sample.at_self Sample.at_self
           Sample.world 0%nat).
  - reflexivity.
  - repeat constructor. simpl. tauto.
  - reflexivity.
Defined.

Lemma only_removes_nodup (self : Consumable) (w w' : World) :
  only_removes self w w' -> inventories_nodup w -> inventories_nodup w'.
Proof.
  intros H Hnd k. destruct (H k) as [E | [_ E]]; rewrite E.
  - apply Hnd.
  - apply NoDup_remove_first_keeps, Hnd.
Qed.

Lemma only_removes_point_back (self : Consumable) (w w' : World) :
  only_removes self w w' -> items w' = items w ->
  listed_items_point_back w -> listed_items_point_back w'.
Proof.
  intros H Hi Hw e k Hin. rewrite Hi. apply Hw.
  now apply (only_removes_subset self w w' H).
Qed.

(** X6: [consume] and every [activate] keep the inventories well formed: if
    every inventory lists an item at most once and every listed item has the
    listing inventory as its parent, the same holds afterwards. *)
Theorem consumables_keep_inventories_well_formed
    (self : Consumable) (action : ItemAction) (w : World) :
  inventories_nodup w ->
  listed_items_point_back w ->
  (inventories_nodup (fst (consume self w))
   /\ listed_items_point_back (fst (consume self w)))
  /\ (inventories_nodup (fst (activate self action w))
      /\ listed_items_point_back (fst (activate self action w))).
Proof.
  intros Hnd Hpb. split; split.
  - apply (only_removes_nodup self w); [apply consume_only_removes | exact Hnd].
  - apply (only_removes_point_back self w); [apply consume_only_removes | | exact Hpb].
    apply consume_frame.
  - apply (only_removes_nodup self w); [apply activate_only_removes | exact Hnd].
  - apply (only_removes_point_back self w); [apply activate_only_removes | | exact Hpb].
    apply activate_items.
Qed.

Lemma sample_world_inventories_nodup : inventories_nodup Sample.world.
Proof.
  intros [| k]; simpl.
  - repeat constructor. simpl. tauto.
  - constructor.
Defined.

Lemma sample_world_points_back : listed_items_point_back Sample.world.
Proof.
  intros e [| k] Hin; simpl in Hin.
  - destruct Hin as [<- | []]. reflexivity.
  - destruct Hin.
Defined.

Lemma consumables_keep_inventories_well_formed_witness :
  inventories_nodup
    (fst (activate (Sample.scroll (FireballDamageConsumable 12 3))
                   Sample.at_orc Sample.world)).
Proof.
  exact (proj1 (proj2 (consumables_keep_inventories_well_formed
                         (Sample.scroll (FireballDamageConsumable 12 3))
                         Sample.at_orc Sample.world
                         sample_world_inventories_nodup
                         sample_world_points_back))).
Defined.

(** X7: an activation that is rejected with [Impossible] writes nothing to
    the message log, whatever the consumable and its parameters. *)
Theorem rejected_activation_logs_nothing
    (self : Consumable) (action : ItemAction) (w : World) :
  raises_Impossible (activate self action w) ->
  message_log (fst (activate self action w)) = message_log w.
Proof.
  intros Hr. destruct self as [item v].
  destruct v as [n | amount | d r | d m].
  - now rewrite (confusion_rejected_unchanged item n action w Hr).
  - rewrite (healing_activate_eq item amount action w) in Hr |- *.
    destruct (0 <? _).
    + now apply consume_never_Impossible in Hr.
    + reflexivity.
  - now rewrite (fireball_rejected_unchanged item d r action w Hr).
  - now rewrite (lightning_rejected_unchanged item d m action w Hr).
Qed.

Lemma rejected_activation_logs_nothing_witness :
  message_log
    (fst (activate (Sample.scroll (ConfusionConsumable 10)) Sample.at_self
                   Sample.world))
  = [].
Proof.
  apply (rejected_activation_logs_nothing
           (Sample.scroll (ConfusionConsumable 10)) Sample.at_self Sample.world).
  eexists. vm_compute. reflexivity.
Defined.

(** ** The fireball: log, order of the actors, footprint *)





Lemma existsb_Permutation {A : Type} (f : A -> bool) (l l' : list A) :
  Permutation l l' -> existsb f l = existsb f l'.
Proof.
  intros Hp.
  destruct (existsb f l) eqn:E; symmetry.
  - apply existsb_exists in E. destruct E as (a & Ha & Hf).
    apply existsb_exists. exists a. split; [| exact Hf].
    now apply (Permutation_in a Hp).
  - destruct (existsb f l') eqn:E'; [| reflexivity].
    apply existsb_exists in E'. destruct E' as (a & Ha & Hf).
    rewrite <- E. symmetry. apply existsb_exists. exists a. split; [| exact Hf].
    apply (Permutation_in a (Permutation_sym Hp) Ha).
Qed.

Lemma consume_depends_on_inventories (self : Consumable) (w1 w2 : World) :
  items w1 = items w2 -> inventory_items w1 = inventory_items w2 ->
  snd (consume self w1) = snd (consume self w2)
  /\ inventory_items (fst (consume self w1)) = inventory_items (fst (consume self w2)).
Proof.
  intros Hi Hv. unfold consume, list_remove. rewrite Hi, Hv.
  destruct (parent (items w2 (self_parent self))) as [k0 | |]; simpl; auto.
  destruct (existsb _ _); simpl; rewrite ?Hv; auto.
Qed.

(** What the loop leaves of each actor, read off [fireball_loop_spec]. *)
Lemma fireball_loop_actor (d r : Z) (xy : Z * Z) (w : World) (i : nat) :
  NoDup (actors w) ->
  actor_at (fst (fireball_loop d r xy (actors w) false w)) i
  = if within_radius w i xy r && existsb (Nat.eqb i) (actors w)
    then damaged d (actor_at w i)
    else actor_at w i.
Proof.
  intros Hnd.
  destruct (fireball_loop_spec d r xy (actors w) false w)
    as (w1 & Hrun & _ & _ & Hout & Hin & _).
  rewrite Hrun. simpl.
  destruct (within_radius w i xy r) eqn:Hw; simpl.
  - destruct (existsb (Nat.eqb i) (actors w)) eqn:E.
    + apply existsb_eqb_In in E. now apply Hin.
    + apply Hout. intros [Hi _]. apply existsb_eqb_In in Hi. congruence.
  - apply Hout. intros [_ Hw']. congruence.
Qed.

(** X9: what the fireball does to the actors, whether it raises, and what
    it leaves in the inventories do not depend on the order in which
    [game_map.actors] yields the actors. *)
Theorem fireball_order_irrelevant
    (item : nat) (damage radius : Z) (action : ItemAction) (w : World)
    (l : list nat) :
  NoDup (actors w) ->
  Permutation (actors w) l ->
  let self := mkConsumable item (FireballDamageConsumable damage radius) in
  snd (activate self action (reorder w l)) = snd (activate self action w)
  /\ (forall i, actor_at (fst (activate self action (reorder w l))) i
                = actor_at (fst (activate self action w)) i)
  /\ inventory_items (fst (activate self action (reorder w l)))
     = inventory_items (fst (activate self action w)).
Proof.
  intros Hnd Hperm self.
  destruct (visible w (target_xy action)) eqn:Hv.
  2:{ unfold self, activate. simpl. unfold fireball_activate. simpl.
      rewrite Hv. simpl. repeat split. }
  assert (Hnd' : NoDup (actors (reorder w l)))
    by (simpl; eapply Permutation_NoDup; eassumption).
  destruct (fireball_activate_eq item damage radius action w Hv)
    as (w1 & Hrun1 & Hact1).
  destruct (fireball_activate_eq item damage radius action (reorder w l) Hv)
    as (w2 & Hrun2 & Hact2).
  fold self in Hact1, Hact2.
  pose proof (fun i => fireball_loop_actor damage radius (target_xy action) w i Hnd)
    as Ha1.
  pose proof (fun i => fireball_loop_actor damage radius (target_xy action)
                         (reorder w l) i Hnd') as Ha2.
  rewrite Hrun1 in Ha1. rewrite Hrun2 in Ha2. simpl in Ha1, Ha2.
  assert (Hsame : forall i, actor_at w2 i = actor_at w1 i).
  { intros i. rewrite Ha1, Ha2.
    change (within_radius (reorder w l) i (target_xy action) radius)
      with (within_radius w i (target_xy action) radius).
    now rewrite (existsb_Permutation (Nat.eqb i) (actors w) l Hperm). }
  destruct (fireball_loop_spec damage radius (target_xy action) (actors w) false w)
    as (w1' & Hrun1' & Hit1 & Hinv1 & _).
  destruct (fireball_loop_spec damage radius (target_xy action) l false (reorder w l))
    as (w2' & Hrun2' & Hit2 & Hinv2 & _).
  simpl in Hrun1', Hrun2'. simpl in Hrun2.
  rewrite Hrun1 in Hrun1'. injection Hrun1' as <-.
  rewrite Hrun2 in Hrun2'. injection Hrun2' as <-.
  simpl in Hit2, Hinv2.
  rewrite Hact1, Hact2. simpl.
  change (fun i => within_radius (reorder w l) i (target_xy action) radius)
    with (fun i => within_radius w i (target_xy action) radius).
  rewrite <- (existsb_Permutation _ (actors w) l Hperm).
  destruct (existsb _ (actors w)).
  - destruct (consume_depends_on_inventories self w2 w1) as [Ho Hi].
    + now rewrite Hit1, Hit2.
    + now rewrite Hinv1, Hinv2.
    + destruct (consume_frame self w1) as (_ & _ & Hc1 & _).
      destruct (consume_frame self w2) as (_ & _ & Hc2 & _).
      split; [exact Ho |]. split; [| exact Hi].
      intros i. rewrite Hc1, Hc2. apply Hsame.
  - simpl. split; [reflexivity |]. split; [exact Hsame |].
    now rewrite Hinv1, Hinv2.
Qed.

Lemma fireball_order_irrelevant_witness :
  snd (activate (Sample.scroll (FireballDamageConsumable 12 3)) Sample.at_orc
                (reorder Sample.world [2%nat; 0%nat; 1%nat]))
  = snd (activate (Sample.scroll (FireballDamageConsumable 12 3)) Sample.at_orc
                  Sample.world).
Proof.
  refine (proj1 (fireball_order_irrelevant 0%nat 12 3 Sample.at_orc Sample.world
                   [2%nat; 0%nat; 1%nat] _ _)).
  - simpl. repeat constructor; simpl; intuition discriminate.
  - simpl. apply Permutation_sym.
    apply (Permutation_cons_app [0%nat; 1%nat] [] 2%nat). reflexivity.
Defined.


(** ** The lightning: rejection, choice of the target *)

(** X10: a fireball with a negative radius and a lightning with a negative
    maximum range never hit anything and leave the heap as it was: the
    fireball on a visible target raises [Impossible] for lack of targets; the
    lightning raises [Impossible] for lack of an enemy or, when the maximum
    range does not fit a float, [OverflowError]. *)
Theorem negative_reach_never_hits
    (item : nat) (damage bound : Z) (action : ItemAction) (w : World) :
  bound < 0 ->
  (visible w (target_xy action) = true ->
   activate (mkConsumable item (FireballDamageConsumable damage bound)) action w
   = (w, Raised (Impossible "There are no targets in the radius.")))
  /\ activate (mkConsumable item (LightningDamageConsumable damage bound)) action w
     = (w, Raised (match float_of_int bound with
                   | Some _ => Impossible "Pas d'ennemi proche a cibler."
                   | None => OverflowError
                   end)).
Proof.
  intros Hneg. split.
  - intros Hv.
    assert (Hnone : existsb (fun i => within_radius w i (target_xy action) bound)
                            (actors w) = false).
    { destruct (existsb _ _) eqn:E; [| reflexivity].
      apply existsb_exists in E. destruct E as (i & _ & Hw).
      unfold within_radius, real_leb, distance in Hw. simpl in Hw.
      apply negb_true_iff, orb_false_iff in Hw. destruct Hw as [H0 _].
      apply Z.ltb_ge in H0. lia. }
    destruct (fireball_loop_spec damage bound (target_xy action) (actors w) false w)
      as (w1 & Hrun & _ & _ & _ & _ & Hsame).
    destruct (fireball_activate_eq item damage bound action w Hv)
      as (w2 & Hrun2 & Hact).
    simpl in Hrun. rewrite Hrun in Hrun2. injection Hrun2 as <-.
    rewrite Hact, Hnone. now rewrite (Hsame Hnone).
  - destruct (lightning_activate_spec item damage bound action w)
      as [[Hf E] | [(Hf & _ & E) | (t & _ & Hreach & _)]].
    + now rewrite Hf.
    + destruct (float_of_int bound); [exact E | contradiction].
    + unfold in_reach in Hreach.
      apply andb_true_iff in Hreach. destruct Hreach as [_ Hlt].
      destruct (lightning_start bound) as [[q | n] |] eqn:Hs; try discriminate.
      * pose proof (lightning_start_negative bound q Hneg Hs) as Hq.
        unfold distance_to, distance in Hlt. simpl in Hlt.
        apply andb_true_iff in Hlt. destruct Hlt as [H0 _].
        apply Z.ltb_lt in H0. lia.
      * unfold lightning_start in Hs.
        destruct (float_of_int bound); discriminate.
Qed.

Lemma negative_reach_never_hits_witness :
  activate (Sample.scroll (LightningDamageConsumable 20 (-1))) Sample.at_self
           Sample.world
  = (Sample.world, Raised (Impossible "Pas d'ennemi proche a cibler.")).
Proof.
  refine (proj2 (negative_reach_never_hits 0%nat 20 (-1) Sample.at_self
                   Sample.world _)).
  lia.
Defined.

(** X11: the lightning raises [OverflowError] exactly when its maximum range
    does not fit a float, and [Impossible] exactly when it fits and no actor
    of the game map other than the consumer stands on a visible tile at a
    distance strictly below the float [maximum_range + 1.0]; in both cases
    the heap is as before.  Below 2^53 that float is [maximum_range + 1]. *)
Theorem lightning_rejected_iff_nothing_in_reach
    (item : nat) (damage maximum_range : Z) (action : ItemAction) (w : World) :
  let self := mkConsumable item (LightningDamageConsumable damage maximum_range) in
  (snd (activate self action w) = Raised OverflowError
   <-> float_of_int maximum_range = None)
  /\ (raises_Impossible (activate self action w)
      <-> float_of_int maximum_range <> None
          /\ forall i, In i (actors w) ->
                       in_reach w (entity action) maximum_range i = false)
  /\ (raises_Impossible (activate self action w)
      \/ snd (activate self action w) = Raised OverflowError ->
      fst (activate self action w) = w)
  /\ (Z.abs maximum_range < 2 ^ 53 ->
      lightning_start maximum_range = Some (of_int (maximum_range + 1))).
Proof.
  intros self.
  split; [| split; [| split; [| apply lightning_start_exact]]];
    destruct (lightning_activate_spec item damage maximum_range action w)
      as [[Hf E] | [(Hf & Hnone & E) | (t & Ht & Hreach & _ & E)]];
    fold self in E; rewrite E; simpl.
  - now split.
  - split; [discriminate | intros H; contradiction].
  - split.
    + intros Ho. destruct (consume_outcome self (struck w damage t)) as [O | O];
        rewrite O in Ho; discriminate.
    + intros Hf. unfold in_reach, lightning_start in Hreach. rewrite Hf in Hreach.
      now rewrite andb_false_r in Hreach.
  - split; [intros [message H]; discriminate | intros [H _]; contradiction].
  - split; [intros _; now split | intros _; eexists; reflexivity].
  - split.
    + intros Hr. now apply consume_never_Impossible in Hr.
    + intros [_ Hall]. rewrite (Hall t Ht) in Hreach. discriminate.
  - reflexivity.
  - reflexivity.
  - intros [Hr | Ho].
    + now apply consume_never_Impossible in Hr.
    + destruct (consume_outcome self (struck w damage t)) as [O | O];
        rewrite O in Ho; discriminate.
Qed.





(** ** Footprint and log of an activation *)

(** X14: an activation changes no actor but those it aims at: a potion its
    consumer, a confusion scroll the actor under a visible target that is not
    the consumer, a fireball the actors of the game map within the radius of
    a visible target, a lightning an actor of the game map in reach.  In
    particular the lightning never strikes its consumer or an actor on a tile
    that is not visible. *)
Theorem activation_footprint
    (self : Consumable) (action : ItemAction) (w : World) (i : nat) :
  actor_at (fst (activate self action w)) i <> actor_at w i ->
  may_touch self action w i.
Proof.
  destruct self as [item v]. unfold may_touch. simpl.
  destruct v as [n | amount | d r | d m]; intros Hch.
  - destruct (visible w (target_xy action)) eqn:Hv.
    2:{ exfalso. apply Hch. unfold activate. simpl. unfold confusion_activate.
        now rewrite Hv. }
    destruct (target_actor w (target_xy action)) as [t |] eqn:Ht.
    2:{ exfalso. apply Hch. unfold activate. simpl. unfold confusion_activate.
        now rewrite Hv, Ht. }
    destruct (Nat.eq_dec t (entity action)) as [E | Hne].
    { exfalso. apply Hch. unfold activate. simpl. unfold confusion_activate.
      now rewrite Hv, Ht, E, Nat.eqb_refl. }
    destruct (Nat.eq_dec i t) as [-> | Hit]; [now repeat split |].
    exfalso. apply Hch.
    rewrite (confusion_activate_eq item n action w t Hv Ht Hne).
    match goal with |- context [consume ?s ?w1] =>
      destruct (consume_frame s w1) as (_ & _ & Ha & _)
    end.
    rewrite Ha. simpl. now apply upd_other.
  - destruct (Nat.eq_dec i (entity action)) as [E | Hne]; [exact E |].
    exfalso. apply Hch.
    rewrite (healing_activate_eq item amount action w).
    destruct (0 <? _).
    + match goal with |- context [consume ?s ?w1] =>
        destruct (consume_frame s w1) as (_ & _ & Ha & _)
      end.
      rewrite Ha. simpl. now apply upd_other.
    + simpl. now apply upd_other.
  - destruct (visible w (target_xy action)) eqn:Hv.
    2:{ exfalso. apply Hch. unfold activate. simpl. unfold fireball_activate.
        now rewrite Hv. }
    split; [reflexivity |].
    destruct (fireball_loop_spec d r (target_xy action) (actors w) false w)
      as (w1 & Hrun & _ & _ & Hout & _).
    destruct (fireball_activate_eq item d r action w Hv) as (w2 & Hrun2 & Hact).
    simpl in Hrun. rewrite Hrun in Hrun2. injection Hrun2 as <-.
    assert (Hw1 : actor_at (fst (activate (mkConsumable item
                                  (FireballDamageConsumable d r)) action w))
                  = actor_at w1).
    { rewrite Hact. destruct (existsb _ _); [| reflexivity]. apply consume_frame. }
    rewrite Hw1 in Hch.
    destruct (within_radius w i (target_xy action) r) eqn:Hw.
    + destruct (in_dec Nat.eq_dec i (actors w)) as [Hin | Hnin]; [now split |].
      exfalso. apply Hch. apply Hout. now intros [Hin _].
    + exfalso. apply Hch. apply Hout. intros [_ Hw']. congruence.
  - destruct (lightning_activate_spec item d m action w)
      as [[_ E] | [(_ & _ & E) | (t & Ht & Hreach & _ & E)]].
    + exfalso. apply Hch. now rewrite E.
    + exfalso. apply Hch. now rewrite E.
    + destruct (Nat.eq_dec i t) as [-> | Hit]; [now split |].
      exfalso. apply Hch. rewrite E.
      match goal with |- context [consume ?s ?w1] =>
        destruct (consume_frame s w1) as (_ & _ & Ha & _)
      end.
      rewrite Ha. simpl. now apply upd_other.
Qed.

Lemma activation_footprint_witness :
  may_touch (Sample.scroll (LightningDamageConsumable 20 5)) Sample.at_self
            Sample.world 1%nat.
Proof.
  apply activation_footprint. vm_compute. discriminate.
Defined.


